(** * Shallow embedding of the ray tracer of [rt.c]

    Doubles are modelled as real numbers ([R]); the IEEE value [INFINITY],
    which [rt.c] uses as the "no intersection" sentinel, is modelled by the
    constructor [Infinity] of [dist]. *)

From Stdlib Require Import Reals Lra Psatz ZArith List.
Import ListNotations.

Open Scope R_scope.

(** ** Vectors (vec3.h) *)

Record vec3 := Vec3 { x : R; y : R; z : R }.

(** Modelled from the spec: [vec3_add] of vec3.h (not in the sources), 4.1. *)
Definition vec3_add (a b : vec3) : vec3 :=
  Vec3 (x a + x b) (y a + y b) (z a + z b).

(** Modelled from the spec: [vec3_sub] of vec3.h (not in the sources), 4.1. *)
Definition vec3_sub (a b : vec3) : vec3 :=
  Vec3 (x a - x b) (y a - y b) (z a - z b).

(** Modelled from the spec: [vec3_mul] (scalar multiplication) of vec3.h. *)
Definition vec3_mul (a : vec3) (k : R) : vec3 :=
  Vec3 (x a * k) (y a * k) (z a * k).

(** Modelled from the spec: [vec3_mul_vec] (elementwise product) of vec3.h. *)
Definition vec3_mul_vec (a b : vec3) : vec3 :=
  Vec3 (x a * x b) (y a * y b) (z a * z b).

(** Modelled from the spec: [vec3_dot] of vec3.h. *)
Definition vec3_dot (a b : vec3) : R :=
  x a * x b + y a * y b + z a * z b.

(** Modelled from the spec: [vec3_cross] of vec3.h. *)
Definition vec3_cross (a b : vec3) : vec3 :=
  Vec3 (y a * z b - z a * y b)
       (z a * x b - x a * z b)
       (x a * y b - y a * x b).

(** Modelled from the spec: [vec3_length] (Euclidean length) of vec3.h. *)
Definition vec3_length (a : vec3) : R := sqrt (vec3_dot a a).

(** Modelled from the spec: [vec3_normalize] of vec3.h, which divides the
    vector in place by its length; the result is returned here. *)
Definition vec3_normalize (a : vec3) : vec3 :=
  let l := vec3_length a in Vec3 (x a / l) (y a / l) (z a / l).

(** Modelled from the spec: [vec3_reflect(incident, normal)] of vec3.h,
    [incident - 2 (incident . normal) normal]. *)
Definition vec3_reflect (i n : vec3) : vec3 :=
  vec3_sub i (vec3_mul n (2 * vec3_dot i n)).

Definition vec3_zero : vec3 := Vec3 0 0 0.

(** ** Scene objects *)

Record sphere := Sphere { center : vec3; radius : R }.

Record ray := Ray { source : vec3; direction : vec3 }.

Record camera := Camera {
  cam_center : vec3;
  forward : vec3;
  up : vec3;
  width : R;
  height : R;
  focal_distance : R }.

Record intersection := Intersection { point : vec3; normal : vec3 }.

(** A [double] returned by [sphere_ray_intersect]: finite, or [INFINITY]. *)
Inductive dist := Finite (t : R) | Infinity.

(** ** [focal_distance_from_fov] *)

(** [360 / 2] is an [int] division in the source. *)
Definition focal_distance_from_fov (w fov_deg : R) : R :=
  let fov_rad := fov_deg * PI / IZR (360 / 2)%Z in
  (w / 2) / tan (fov_rad / 2).

(** ** [camera_cast_ray] *)

Definition camera_cast_ray (cam : camera) (cam_x cam_y : R) : ray :=
  let x_coeff := cam_x * width cam in
  let y_coeff := cam_y * height cam in
  let right := vec3_cross (forward cam) (up cam) in
  let right_offset := vec3_mul right x_coeff in
  let up_offset := vec3_mul (up cam) y_coeff in
  let offset := vec3_add right_offset up_offset in
  let src := vec3_add (cam_center cam) offset in
  let vantage_point_offset := vec3_mul (forward cam) (- focal_distance cam) in
  let vantage_point := vec3_add vantage_point_offset (cam_center cam) in
  Ray src (vec3_normalize (vec3_sub src vantage_point)).

(** ** [sphere_ray_intersect] *)

Definition sri_hypothenuse (r : ray) (s : sphere) : vec3 :=
  vec3_sub (center s) (source r).

Definition sri_projection (r : ray) (s : sphere) : R :=
  vec3_dot (sri_hypothenuse r s) (direction r).

(** The C [sqrt] returns NaN on a negative argument where [sqrt] of the
    Standard Library returns 0; the argument here is non-negative whenever
    the ray direction has unit length (see [vec3_dot_unit_bound]), which the
    statements about [sphere_ray_intersect] assume where it matters. *)
Definition sri_d (r : ray) (s : sphere) : R :=
  let hyp_len := vec3_length (sri_hypothenuse r s) in
  let projection := sri_projection r s in
  sqrt (hyp_len * hyp_len - projection * projection).

Definition sri_m (r : ray) (s : sphere) : R :=
  let d := sri_d r s in
  sqrt (radius s * radius s - d * d).

(** The returned distance, paired with what the function writes through its
    [intersection] out-parameter ([None]: left untouched). *)
Definition sphere_ray_intersect (r : ray) (s : sphere)
  : dist * option intersection :=
  let projection := sri_projection r s in
  if Rlt_dec projection 0 then (Infinity, None) else
  let d := sri_d r s in
  if Rgt_dec d (radius s) then (Infinity, None) else
  let m := sri_m r s in
  let t0 := projection - m in
  let t1 := projection + m in
  let t := if Rlt_dec t0 0 then t1 else t0 in
  let point_offset := vec3_mul (direction r) t in
  let p := vec3_add (source r) point_offset in
  let n := vec3_normalize (vec3_sub p (center s)) in
  (Finite t, Some (Intersection p n)).

(** The ray-sphere equation [|source + t direction - center|^2 = radius^2]. *)
Definition on_sphere_at (r : ray) (s : sphere) (t : R) : Prop :=
  let q := vec3_sub (vec3_add (source r) (vec3_mul (direction r) t)) (center s) in
  vec3_dot q q = radius s * radius s.

(** ** Shading (the body of the pixel loop of [main]) *)

Record light := Light {
  light_color : vec3;
  light_direction : vec3;
  light_intensity : R }.

(** The material constants that [main] declares inside the pixel loop. *)
Record material := Material {
  surface_color : vec3;
  diffuse_kn : R;
  spec_n : nat;
  spec_ks : R;
  ambient_intensity : R }.

Definition diffuse_contribution (l : light) (mt : material) (bi : intersection)
  : vec3 :=
  let lc := vec3_mul (light_color l) (light_intensity l) in
  let diffuse_light_color := vec3_mul_vec lc (surface_color mt) in
  let di := - vec3_dot (normal bi) (light_direction l) in
  let diffuse_intensity := if Rlt_dec di 0 then 0 else di in
  vec3_mul diffuse_light_color (diffuse_intensity * diffuse_kn mt).

(** [pow(light_reflection_proj, spec_n)] with the integral exponent
    [spec_n] is repeated multiplication. *)
Definition specular_contribution (l : light) (mt : material)
  (bi : intersection) (view_dir : vec3) : vec3 :=
  let light_reflection_dir := vec3_reflect (light_direction l) (normal bi) in
  let light_reflection_proj := - vec3_dot light_reflection_dir view_dir in
  if Rlt_dec light_reflection_proj 0 then vec3_zero
  else
    let spec_coeff := light_reflection_proj ^ spec_n mt * spec_ks mt in
    vec3_mul (light_color l) spec_coeff.

Definition ambient_contribution (mt : material) : vec3 :=
  vec3_mul (surface_color mt) (ambient_intensity mt).

Definition pix_color (l : light) (mt : material) (bi : intersection)
  (view_dir : vec3) : vec3 :=
  let c0 := vec3_zero in
  let c1 := vec3_add c0 (ambient_contribution mt) in
  let c2 := vec3_add c1 (diffuse_contribution l mt bi) in
  vec3_add c2 (specular_contribution l mt bi view_dir).

(** The constants of [main]. *)
Definition main_light : light :=
  Light (Vec3 1 1 0) (vec3_normalize (Vec3 (-1) 1 1)) 5.

Definition main_material : material :=
  Material (Vec3 0.75 0.125 0.125) 0.20 10 0.20 0.1.

(** ** Conversion to 8-bit pixels *)

Record rgb_pixel := Rgb { r : Z; g : Z; b : Z }.

(** C conversion of a [double] to [uint8_t]: truncation toward zero (the
    argument is always in [0, 255] at the call site). *)
Definition double_to_uint8 (v : R) : Z :=
  if Rle_dec 0 v then Int_part v else (- Int_part (- v))%Z.

Definition translate_light_component (light_comp : R) : Z :=
  let c1 := if Rlt_dec light_comp 0 then 0 else light_comp in
  let c2 := if Rgt_dec c1 1 then 1 else c1 in
  double_to_uint8 (c2 * 255).

Definition rgb_color_from_light (lt : vec3) : rgb_pixel :=
  Rgb (translate_light_component (x lt))
      (translate_light_component (y lt))
      (translate_light_component (z lt)).

(** [normal_color]: maps each component of a normal from [-1, 1] to
    [0, 255]. *)
Definition normal_color (n : vec3) : rgb_pixel :=
  let nx := (x n + 1) / 2 in
  let ny := (y n + 1) / 2 in
  let nz := (z n + 1) / 2 in
  Rgb (double_to_uint8 (nx * 255))
      (double_to_uint8 (ny * 255))
      (double_to_uint8 (nz * 255)).

(** ** The pixel buffer (image.h) *)

Definition rgb_image := nat -> nat -> rgb_pixel.

(** Modelled from the spec: [rgb_image_clear] of image.h (not in the
    sources), which sets every pixel to the background color. *)
Definition rgb_image_clear (bg : rgb_pixel) : rgb_image := fun _ _ => bg.

(** Modelled from the spec: [rgb_image_set] of image.h (not in the sources),
    "set pixel at (x, y) to color C". *)
Definition rgb_image_set (img : rgb_image) (px py : nat) (c : rgb_pixel)
  : rgb_image :=
  fun a b => if andb (Nat.eqb a px) (Nat.eqb b py) then c else img a b.

(** ** The render driver ([main]) *)

(** [intersection_dist >= best_intersection_dist] on doubles that are
    finite or [INFINITY]. *)
Definition dist_ge (a b : dist) : bool :=
  match a, b with
  | Infinity, _ => true
  | Finite _, Infinity => false
  | Finite ta, Finite tb => if Rge_dec ta tb then true else false
  end.

(** One iteration of the loop over the spheres: [(best_intersection_dist,
    best_intersection)] and the result of [sphere_ray_intersect]. *)
Definition keep_nearer (best cur : dist * option intersection)
  : dist * option intersection :=
  if dist_ge (fst cur) (fst best) then best else cur.

Definition nearest (ry : ray) (spheres : list sphere)
  : dist * option intersection :=
  fold_left (fun best s => keep_nearer best (sphere_ray_intersect ry s))
    spheres (Infinity, None).

Definition pixel_ray (cam : camera) (img_w img_h px py : nat) : ray :=
  let cam_x := INR px / INR img_w - 0.5 in
  let cam_y := INR py / INR img_h - 0.5 in
  camera_cast_ray cam cam_x cam_y.

(** One iteration of the pixel loop. A finite distance always comes with the
    intersection written by [sphere_ray_intersect], so the case
    [(Finite _, None)] does not occur. *)
Definition render_pixel (cam : camera) (spheres : list sphere) (l : light)
  (mt : material) (img_w img_h : nat) (img : rgb_image) (px py : nat)
  : rgb_image :=
  let ry := pixel_ray cam img_w img_h px py in
  match nearest ry spheres with
  | (Finite _, Some bi) =>
      rgb_image_set img px py
        (rgb_color_from_light (pix_color l mt bi (direction ry)))
  | _ => img
  end.

Definition render (cam : camera) (spheres : list sphere) (l : light)
  (mt : material) (img_w img_h : nat) (img : rgb_image) : rgb_image :=
  fold_left
    (fun im py =>
       fold_left (fun im' px => render_pixel cam spheres l mt img_w img_h im' px py)
         (seq 0 img_w) im)
    (seq 0 img_h) img.

(** The example scene of the spec: a ray from the origin along [+y] and the
    sphere of [main]. *)
Definition ex_ray : ray := Ray (Vec3 0 0 0) (Vec3 0 1 0).
Definition ex_sphere : sphere := Sphere (Vec3 0 10 0) 4.

(** The camera of [main]: [cam_height = cam_width * image->height /
    image->width] for the 1920 x 1080 image. *)
Definition main_camera : camera :=
  Camera (Vec3 0 0 0) (Vec3 0 1 0) (Vec3 0 0 1) 10 (10 * 1080 / 1920)
    (focal_distance_from_fov 10 80).

(** A ray and a sphere moved by the same offset. *)
Definition translate_ray (ry : ray) (v : vec3) : ray :=
  Ray (vec3_add (source ry) v) (direction ry).

Definition translate_sphere (s : sphere) (v : vec3) : sphere :=
  Sphere (vec3_add (center s) v) (radius s).

(** The smaller of two [sphere_ray_intersect] distances, the first on a tie. *)
Definition dist_min (a c : dist) : dist := if dist_ge c a then a else c.

(** A camera at the origin looking along [-y], away from [ex_sphere]. *)
Definition back_camera : camera :=
  Camera (Vec3 0 0 0) (Vec3 0 (-1) 0) (Vec3 0 0 1) 10 10 1.

(** A camera at the origin looking along [+y], towards [ex_sphere]. *)
Definition front_camera : camera :=
  Camera (Vec3 0 0 0) (Vec3 0 1 0) (Vec3 0 0 1) 10 10 1.

(** Every channel of a color is non-negative. *)
Definition vec3_nonneg (v : vec3) : Prop := 0 <= x v /\ 0 <= y v /\ 0 <= z v.

(** ** Specification of the nearest-hit selection *)

(** [best] is the first among [hits] with the smallest finite distance, or
    the initial [(INFINITY, none)] when every distance is infinite. *)
Definition nearest_spec (hits : list (dist * option intersection))
  (best : dist * option intersection) : Prop :=
  match fst best with
  | Infinity => best = (Infinity, None) /\ forall h, In h hits -> fst h = Infinity
  | Finite t =>
      exists k, nth_error hits k = Some best /\
        (forall j h t', nth_error hits j = Some h -> fst h = Finite t' -> t <= t') /\
        (forall j h t', (j < k)%nat -> nth_error hits j = Some h ->
                        fst h = Finite t' -> t < t')
  end.

(** * Properties *)

(** ** Algebra of the vector model *)

Lemma vec3_dot_self_nonneg (v : vec3) : 0 <= vec3_dot v v.
Proof. destruct v as [a b c]; unfold vec3_dot; simpl; nra. Qed.

(** Cauchy-Schwarz against a unit vector. *)
Lemma vec3_dot_unit_bound (l d : vec3) :
  vec3_dot d d = 1 -> vec3_dot l d * vec3_dot l d <= vec3_dot l l.
Proof.
  destruct l as [a b c], d as [u v w]; unfold vec3_dot; simpl; intros Hd.
  assert (Hl : (a*a + b*b + c*c) * (u*u + v*v + w*w)
               - (a*u + b*v + c*w) * (a*u + b*v + c*w)
               = (b*w - c*v)*(b*w - c*v) + (c*u - a*w)*(c*u - a*w)
                 + (a*v - b*u)*(a*v - b*u)) by ring.
  rewrite Hd, Rmult_1_r in Hl.
  pose proof (Rle_0_sqr (b*w - c*v)); pose proof (Rle_0_sqr (c*u - a*w));
  pose proof (Rle_0_sqr (a*v - b*u)); unfold Rsqr in *. lra.
Qed.

Lemma on_sphere_at_iff (ry : ray) (s : sphere) (t : R) :
  vec3_dot (direction ry) (direction ry) = 1 ->
  (on_sphere_at ry s t <->
   t * t - 2 * t * sri_projection ry s
   + vec3_dot (sri_hypothenuse ry s) (sri_hypothenuse ry s)
   = radius s * radius s).
Proof.
  unfold on_sphere_at, sri_projection, sri_hypothenuse.
  destruct ry as [[o1 o2 o3] [d1 d2 d3]], s as [[c1 c2 c3] rr].
  unfold vec3_dot, vec3_sub, vec3_add, vec3_mul; simpl; intros Hd.
  match goal with
  | |- ?lhs = _ <-> ?rhs = _ =>
      assert (E : lhs = rhs + t * t * (d1 * d1 + d2 * d2 + d3 * d3 - 1)) by ring
  end.
  rewrite Hd, Rminus_diag, Rmult_0_r, Rplus_0_r in E.
  rewrite E. tauto.
Qed.

(** What [sphere_ray_intersect] computes on its finite path. *)
Lemma sphere_ray_intersect_finite_inv (ry : ray) (s : sphere) (t : R)
  (i : option intersection) :
  sphere_ray_intersect ry s = (Finite t, i) ->
  0 <= sri_projection ry s /\ sri_d ry s <= radius s /\
  t = (if Rlt_dec (sri_projection ry s - sri_m ry s) 0
       then sri_projection ry s + sri_m ry s
       else sri_projection ry s - sri_m ry s).
Proof.
  unfold sphere_ray_intersect.
  destruct (Rlt_dec (sri_projection ry s) 0); [discriminate|].
  destruct (Rgt_dec (sri_d ry s) (radius s)); [discriminate|].
  intros H; injection H as Ht _.
  repeat split; [lra | lra | now rewrite Ht].
Qed.

Lemma sri_d_sq (ry : ray) (s : sphere) :
  vec3_dot (direction ry) (direction ry) = 1 ->
  sri_d ry s * sri_d ry s
  = vec3_dot (sri_hypothenuse ry s) (sri_hypothenuse ry s)
    - sri_projection ry s * sri_projection ry s.
Proof.
  intros Hd. unfold sri_d, vec3_length.
  rewrite (sqrt_sqrt (vec3_dot (sri_hypothenuse ry s) (sri_hypothenuse ry s)))
    by apply vec3_dot_self_nonneg.
  apply sqrt_sqrt.
  pose proof (vec3_dot_unit_bound (sri_hypothenuse ry s) (direction ry) Hd).
  unfold sri_projection. lra.
Qed.

Lemma sri_m_sq (ry : ray) (s : sphere) :
  sri_d ry s <= radius s ->
  sri_m ry s * sri_m ry s = radius s * radius s - sri_d ry s * sri_d ry s.
Proof.
  intros Hdr. unfold sri_m. apply sqrt_sqrt.
  assert (0 <= sri_d ry s) by (unfold sri_d; apply sqrt_pos).
  nra.
Qed.

Lemma sri_m_nonneg (ry : ray) (s : sphere) : 0 <= sri_m ry s.
Proof. unfold sri_m; apply sqrt_pos. Qed.

Lemma sri_roots (ry : ray) (s : sphere) (t : R) :
  vec3_dot (direction ry) (direction ry) = 1 ->
  sri_d ry s <= radius s ->
  (on_sphere_at ry s t <->
   (t - (sri_projection ry s - sri_m ry s))
   * (t - (sri_projection ry s + sri_m ry s)) = 0).
Proof.
  intros Hd Hdr.
  rewrite (on_sphere_at_iff ry s t Hd).
  pose proof (sri_m_sq ry s Hdr) as Hm.
  pose proof (sri_d_sq ry s Hd) as Hdd.
  split; intros H; nra.
Qed.

Lemma ex_hit :
  sphere_ray_intersect ex_ray ex_sphere
  = (Finite 6, Some (Intersection (Vec3 0 6 0) (Vec3 0 (-1) 0))).
Proof.
  assert (Hp : sri_projection ex_ray ex_sphere = 10)
    by (unfold sri_projection, sri_hypothenuse, vec3_dot, vec3_sub; simpl; ring).
  assert (Hd : sri_d ex_ray ex_sphere = 0).
  { unfold sri_d, vec3_length. rewrite Hp.
    replace (vec3_dot (sri_hypothenuse ex_ray ex_sphere)
               (sri_hypothenuse ex_ray ex_sphere)) with (10 * 10)
      by (unfold vec3_dot, sri_hypothenuse, vec3_sub; simpl; ring).
    rewrite sqrt_square by lra.
    replace (10 * 10 - 10 * 10) with 0 by ring. apply sqrt_0. }
  assert (Hm : sri_m ex_ray ex_sphere = 4).
  { unfold sri_m. rewrite Hd. simpl.
    replace (4 * 4 - 0 * 0) with (4 * 4) by ring. apply sqrt_square; lra. }
  unfold sphere_ray_intersect. rewrite Hp, Hm.
  destruct (Rlt_dec 10 0); [lra|].
  rewrite Hd. simpl radius.
  destruct (Rgt_dec 0 4); [lra|].
  destruct (Rlt_dec (10 - 4) 0); [lra|].
  unfold vec3_normalize, vec3_length, vec3_dot, vec3_sub, vec3_add, vec3_mul;
    simpl.
  replace ((0 + 0 * (10 - 4) - 0) * (0 + 0 * (10 - 4) - 0)
           + (0 + 1 * (10 - 4) - 10) * (0 + 1 * (10 - 4) - 10)
           + (0 + 0 * (10 - 4) - 0) * (0 + 0 * (10 - 4) - 0)) with (4 * 4)
    by ring.
  rewrite sqrt_square by lra.
  repeat f_equal; field.
Qed.

Lemma ex_hit_shape_projection : sri_projection ex_ray ex_sphere = 10.
Proof. unfold sri_projection, sri_hypothenuse, vec3_dot, vec3_sub; simpl; ring. Qed.

Lemma ex_hit_shape_d : sri_d ex_ray ex_sphere = 0.
Proof.
  unfold sri_d, vec3_length. rewrite ex_hit_shape_projection.
  replace (vec3_dot (sri_hypothenuse ex_ray ex_sphere)
             (sri_hypothenuse ex_ray ex_sphere)) with (10 * 10)
    by (unfold vec3_dot, sri_hypothenuse, vec3_sub; simpl; ring).
  rewrite sqrt_square by lra.
  replace (10 * 10 - 10 * 10) with 0 by ring. apply sqrt_0.
Qed.

(** ** C1 *)

(** C1: for a unit-direction ray and a sphere of positive radius, a finite
    distance [t] returned by [sphere_ray_intersect] is [t0 = projection - m]
    when [t0 >= 0] and [t1 = projection + m] otherwise; it is a non-negative
    root of the ray-sphere equation and no smaller non-negative root exists. *)
Theorem sphere_ray_intersect_smallest_root (ry : ray) (s : sphere) (t : R)
  (i : option intersection) :
  vec3_dot (direction ry) (direction ry) = 1 ->
  0 < radius s ->
  sphere_ray_intersect ry s = (Finite t, i) ->
  let t0 := sri_projection ry s - sri_m ry s in
  let t1 := sri_projection ry s + sri_m ry s in
  t = (if Rle_dec 0 t0 then t0 else t1) /\
  0 <= t /\ on_sphere_at ry s t /\
  (forall t', 0 <= t' -> on_sphere_at ry s t' -> t <= t').
Proof.
  intros Hd _ Hi t0 t1.
  destruct (sphere_ray_intersect_finite_inv ry s t i Hi) as (Hp & Hdr & Ht).
  pose proof (sri_m_nonneg ry s) as Hm.
  pose proof (fun u => sri_roots ry s u Hd Hdr) as Hroots.
  fold t0 t1 in Ht, Hroots.
  destruct (Rlt_dec t0 0) as [Hneg | Hnneg];
    destruct (Rle_dec 0 t0); try lra; subst t.
  - repeat split.
    + unfold t1; lra.
    + apply Hroots; ring.
    + intros t' Ht' Hon. apply Hroots in Hon.
      apply Rmult_integral in Hon as [E | E]; unfold t0, t1 in *; lra.
  - repeat split.
    + lra.
    + apply Hroots; ring.
    + intros t' Ht' Hon. apply Hroots in Hon.
      apply Rmult_integral in Hon as [E | E]; unfold t0, t1 in *; lra.
Qed.

Lemma sphere_ray_intersect_smallest_root_witness :
  vec3_dot (direction ex_ray) (direction ex_ray) = 1 /\
  0 < radius ex_sphere /\
  (let t0 := sri_projection ex_ray ex_sphere - sri_m ex_ray ex_sphere in
   let t1 := sri_projection ex_ray ex_sphere + sri_m ex_ray ex_sphere in
   6 = (if Rle_dec 0 t0 then t0 else t1) /\
   0 <= 6 /\ on_sphere_at ex_ray ex_sphere 6 /\
   (forall t', 0 <= t' -> on_sphere_at ex_ray ex_sphere t' -> 6 <= t')).
Proof.
  split; [unfold vec3_dot; simpl; ring|].
  split; [simpl; lra|].
  apply (sphere_ray_intersect_smallest_root ex_ray ex_sphere 6
           (Some (Intersection (Vec3 0 6 0) (Vec3 0 (-1) 0)))).
  - unfold vec3_dot; simpl; ring.
  - simpl; lra.
  - exact ex_hit.
Defined.

(** ** C2 *)

(** C2: for a ray with a unit direction, [sphere_ray_intersect] returns the
    [INFINITY] sentinel exactly when the projection is negative or the
    distance [d] from the center to the ray exceeds the radius; otherwise it
    returns a finite distance. Both [sqrt] calls then take a non-negative
    argument, so no NaN arises on the finite path. *)
Theorem sphere_ray_intersect_infinity_iff (ry : ray) (s : sphere) :
  vec3_dot (direction ry) (direction ry) = 1 ->
  (fst (sphere_ray_intersect ry s) = Infinity <->
   sri_projection ry s < 0 \/ sri_d ry s > radius s) /\
  (~ (sri_projection ry s < 0 \/ sri_d ry s > radius s) ->
   exists t, fst (sphere_ray_intersect ry s) = Finite t) /\
  0 <= vec3_length (sri_hypothenuse ry s) * vec3_length (sri_hypothenuse ry s)
       - sri_projection ry s * sri_projection ry s /\
  (~ (sri_projection ry s < 0 \/ sri_d ry s > radius s) ->
   0 <= radius s * radius s - sri_d ry s * sri_d ry s).
Proof.
  intros Hunit.
  assert (Hrad : 0 <= vec3_length (sri_hypothenuse ry s)
                      * vec3_length (sri_hypothenuse ry s)
                      - sri_projection ry s * sri_projection ry s).
  { unfold vec3_length.
    rewrite sqrt_sqrt by apply vec3_dot_self_nonneg.
    pose proof (vec3_dot_unit_bound (sri_hypothenuse ry s) (direction ry) Hunit).
    unfold sri_projection. lra. }
  assert (Hd0 : 0 <= sri_d ry s) by (unfold sri_d; apply sqrt_pos).
  split; [|split; [|split]].
  - unfold sphere_ray_intersect.
    destruct (Rlt_dec (sri_projection ry s) 0) as [Hp | Hp]; [simpl; tauto|].
    destruct (Rgt_dec (sri_d ry s) (radius s)) as [Hd | Hd]; [simpl; tauto|].
    simpl. split; [discriminate | intros [H | H]; contradiction].
  - intros Hn. unfold sphere_ray_intersect.
    destruct (Rlt_dec (sri_projection ry s) 0) as [Hp | Hp]; [tauto|].
    destruct (Rgt_dec (sri_d ry s) (radius s)) as [Hd | Hd]; [tauto|].
    simpl. eexists; reflexivity.
  - exact Hrad.
  - intros Hn. assert (sri_d ry s <= radius s) by (apply Rnot_gt_le; tauto).
    nra.
Qed.

Lemma sphere_ray_intersect_infinity_iff_witness :
  vec3_dot (direction ex_ray) (direction ex_ray) = 1 /\
  (exists t, fst (sphere_ray_intersect ex_ray ex_sphere) = Finite t) /\
  0 <= radius ex_sphere * radius ex_sphere
       - sri_d ex_ray ex_sphere * sri_d ex_ray ex_sphere.
Proof.
  assert (Hu : vec3_dot (direction ex_ray) (direction ex_ray) = 1)
    by (unfold vec3_dot; simpl; ring).
  assert (Hp : ~ (sri_projection ex_ray ex_sphere < 0
                  \/ sri_d ex_ray ex_sphere > radius ex_sphere)).
  { rewrite ex_hit_shape_projection, ex_hit_shape_d. simpl radius. lra. }
  destruct (sphere_ray_intersect_infinity_iff ex_ray ex_sphere Hu)
    as (_ & Hfin & _ & Hm).
  split; [exact Hu|]. split; [exact (Hfin Hp) | exact (Hm Hp)].
Defined.

(** ** C10 *)

(** C10: a finite distance returned by [sphere_ray_intersect] is never
    negative: the hit point is never behind the ray origin. *)
Theorem sphere_ray_intersect_nonneg (ry : ray) (s : sphere) (t : R)
  (i : option intersection) :
  sphere_ray_intersect ry s = (Finite t, i) -> 0 <= t.
Proof.
  intros Hi.
  destruct (sphere_ray_intersect_finite_inv ry s t i Hi) as (Hp & _ & Ht).
  pose proof (sri_m_nonneg ry s).
  destruct (Rlt_dec (sri_projection ry s - sri_m ry s) 0); lra.
Qed.

Lemma sphere_ray_intersect_nonneg_witness :
  sphere_ray_intersect ex_ray ex_sphere
  = (Finite 6, Some (Intersection (Vec3 0 6 0) (Vec3 0 (-1) 0))) /\ 0 <= 6.
Proof.
  split; [exact ex_hit|].
  exact (sphere_ray_intersect_nonneg ex_ray ex_sphere 6 _ ex_hit).
Defined.

(** ** C3 *)

Lemma nth_error_snoc {A : Type} (pre : list A) (c h : A) (j : nat) :
  nth_error (pre ++ [c]) j = Some h ->
  ((j < length pre)%nat /\ nth_error pre j = Some h) \/
  (j = length pre /\ h = c).
Proof.
  intros H. destruct (Nat.lt_ge_cases j (length pre)) as [Hl | Hl].
  - left. rewrite nth_error_app1 in H by exact Hl. auto.
  - right. rewrite nth_error_app2 in H by exact Hl.
    destruct (j - length pre)%nat as [|k] eqn:E.
    + simpl in H. injection H as ->. split; [lia | reflexivity].
    + simpl in H. destruct k; discriminate.
Qed.

Lemma nth_error_snoc_last {A : Type} (pre : list A) (c : A) :
  nth_error (pre ++ [c]) (length pre) = Some c.
Proof. rewrite nth_error_app2 by lia. now rewrite Nat.sub_diag. Qed.

Lemma nth_error_snoc_prefix {A : Type} (pre : list A) (c h : A) (k : nat) :
  nth_error pre k = Some h -> nth_error (pre ++ [c]) k = Some h.
Proof.
  intros H. rewrite nth_error_app1; [exact H|].
  apply nth_error_Some. now rewrite H.
Qed.

Lemma keep_nearer_step (pre : list (dist * option intersection))
  (acc c : dist * option intersection) :
  nearest_spec pre acc -> nearest_spec (pre ++ [c]) (keep_nearer acc c).
Proof.
  destruct acc as [da ia], c as [dc ic].
  unfold nearest_spec, keep_nearer; simpl.
  destruct dc as [tc|], da as [ta|]; simpl.
  - (* both finite *)
    destruct (Rge_dec tc ta) as [Hge | Hlt]; simpl.
    + intros (k & Hk & Hall & Hfirst). exists k. split; [|split].
      * now apply nth_error_snoc_prefix.
      * intros j h t' Hj Hh.
        apply nth_error_snoc in Hj as [[_ Hj] | [_ ->]].
        -- eapply Hall; eauto.
        -- simpl in Hh. injection Hh as <-. lra.
      * intros j h t' Hjk Hj Hh.
        apply nth_error_snoc in Hj as [[_ Hj] | [-> ->]].
        -- eapply Hfirst; eauto.
        -- exfalso.
           assert (Hkl : (k < length pre)%nat)
             by (apply nth_error_Some; rewrite Hk; discriminate).
           lia.
    + intros (k & Hk & Hall & Hfirst). exists (length pre). split; [|split].
      * apply nth_error_snoc_last.
      * intros j h t' Hj Hh.
        apply nth_error_snoc in Hj as [[_ Hj] | [_ ->]].
        -- pose proof (Hall j h t' Hj Hh). lra.
        -- simpl in Hh. injection Hh as <-. lra.
      * intros j h t' Hjk Hj Hh.
        apply nth_error_snoc in Hj as [[_ Hj] | [Hj _]]; [|lia].
        pose proof (Hall j h t' Hj Hh). lra.
  - (* first finite hit *)
    intros [_ Hinf]. exists (length pre). split; [|split].
    + apply nth_error_snoc_last.
    + intros j h t' Hj Hh.
      apply nth_error_snoc in Hj as [[_ Hj] | [_ ->]].
      * apply nth_error_In in Hj. rewrite (Hinf h Hj) in Hh. discriminate.
      * simpl in Hh. injection Hh as <-. lra.
    + intros j h t' Hjk Hj Hh.
      apply nth_error_snoc in Hj as [[_ Hj] | [Hj _]]; [|lia].
      apply nth_error_In in Hj. rewrite (Hinf h Hj) in Hh. discriminate.
  - (* an infinite distance never replaces a finite best *)
    intros (k & Hk & Hall & Hfirst). exists k. split; [|split].
    + now apply nth_error_snoc_prefix.
    + intros j h t' Hj Hh.
      apply nth_error_snoc in Hj as [[_ Hj] | [_ ->]].
      * eapply Hall; eauto.
      * discriminate.
    + intros j h t' Hjk Hj Hh.
      apply nth_error_snoc in Hj as [[_ Hj] | [_ ->]].
      * eapply Hfirst; eauto.
      * discriminate.
  - intros [Hacc Hinf]. split; [exact Hacc|].
    intros h Hin. apply in_app_or in Hin as [Hin | [<- | []]].
    + now apply Hinf.
    + reflexivity.
Qed.

Lemma fold_keep_nearer_spec (l pre : list (dist * option intersection))
  (acc : dist * option intersection) :
  nearest_spec pre acc -> nearest_spec (pre ++ l) (fold_left keep_nearer l acc).
Proof.
  revert pre acc. induction l as [|c l IH]; intros pre acc H; simpl.
  - now rewrite app_nil_r.
  - replace (pre ++ c :: l) with ((pre ++ [c]) ++ l)
      by now rewrite <- app_assoc.
    apply IH, keep_nearer_step, H.
Qed.

Lemma nearest_as_fold (ry : ray) (spheres : list sphere) :
  nearest ry spheres
  = fold_left keep_nearer (map (sphere_ray_intersect ry) spheres) (Infinity, None).
Proof.
  unfold nearest. generalize (Infinity, @None intersection).
  induction spheres as [|s l IH]; intros acc; simpl; auto.
Qed.

(** C3: the loop over the spheres keeps the intersection of the first
    sphere whose distance is the smallest finite one: every finite distance
    is at least as large, and every earlier sphere's finite distance is
    strictly larger; when no sphere is hit the best distance stays
    [INFINITY]. *)
Theorem nearest_first_strict_minimum (ry : ray) (spheres : list sphere) :
  match nearest ry spheres with
  | (Infinity, bi) =>
      bi = None /\
      forall s, In s spheres -> fst (sphere_ray_intersect ry s) = Infinity
  | (Finite t, bi) =>
      exists k s, nth_error spheres k = Some s /\
        sphere_ray_intersect ry s = (Finite t, bi) /\
        (forall j s' t', nth_error spheres j = Some s' ->
           fst (sphere_ray_intersect ry s') = Finite t' -> t <= t') /\
        (forall j s' t', (j < k)%nat -> nth_error spheres j = Some s' ->
           fst (sphere_ray_intersect ry s') = Finite t' -> t < t')
  end.
Proof.
  pose proof (fold_keep_nearer_spec (map (sphere_ray_intersect ry) spheres) []
                (Infinity, None) (conj eq_refl (fun h (H : In h []) => match H with end)))
    as Hs.
  simpl in Hs. rewrite <- nearest_as_fold in Hs.
  destruct (nearest ry spheres) as [[t|] bi]; unfold nearest_spec in Hs; simpl in Hs.
  - destruct Hs as (k & Hk & Hall & Hfirst).
    rewrite nth_error_map in Hk.
    destruct (nth_error spheres k) as [s|] eqn:Es; [|discriminate].
    simpl in Hk. injection Hk as Hk.
    exists k, s. split; [exact Es|]. split; [exact Hk|]. split.
    + intros j s' t' Hj Ht'. apply (Hall j (sphere_ray_intersect ry s')); auto.
      now rewrite nth_error_map, Hj.
    + intros j s' t' Hjk Hj Ht'.
      apply (Hfirst j (sphere_ray_intersect ry s')); auto.
      now rewrite nth_error_map, Hj.
  - destruct Hs as [Hbi Hinf]. injection Hbi as ->. split; [reflexivity|].
    intros s Hin. apply Hinf, in_map, Hin.
Qed.

(** ** C4 *)

Lemma vec3_ext (a c : vec3) : x a = x c -> y a = y c -> z a = z c -> a = c.
Proof. destruct a, c; simpl; intros -> -> ->; reflexivity. Qed.

Lemma focal_distance_from_fov_main_pos : 0 < focal_distance_from_fov 10 80.
Proof.
  unfold focal_distance_from_fov.
  replace (IZR (360 / 2)) with 180 by reflexivity.
  pose proof PI_RGT_0.
  assert (0 < tan (80 * PI / 180 / 2)) by (apply tan_gt_0; lra).
  apply Rdiv_lt_0_compat; lra.
Qed.

(** C4: [camera_cast_ray] starts the ray at
    [center + right (cam_x width) + up (cam_y height)] with
    [right = forward x up], directed along the normalized difference with the
    vantage point [center - forward focal_distance]; for the camera at the
    origin looking along [+y] with [+z] up and a 10 x 10 plane (and a positive
    focal distance, as [focal_distance_from_fov] gives), the ray through
    [(0, 0)] starts at the origin with direction [(0, 1, 0)]. *)
Theorem camera_cast_ray_spec (cam : camera) (cam_x cam_y f : R) :
  0 < f ->
  (let right := vec3_cross (forward cam) (up cam) in
   let o := vec3_add (vec3_add (cam_center cam)
                        (vec3_mul right (cam_x * width cam)))
              (vec3_mul (up cam) (cam_y * height cam)) in
   let vantage_point :=
     vec3_sub (cam_center cam) (vec3_mul (forward cam) (focal_distance cam)) in
   camera_cast_ray cam cam_x cam_y = Ray o (vec3_normalize (vec3_sub o vantage_point)))
  /\
  camera_cast_ray (Camera (Vec3 0 0 0) (Vec3 0 1 0) (Vec3 0 0 1) 10 10 f) 0 0
  = Ray (Vec3 0 0 0) (Vec3 0 1 0).
Proof.
  intros Hf. split.
  - intros right o vp. unfold camera_cast_ray.
    assert (Ho : vec3_add (cam_center cam)
                   (vec3_add (vec3_mul (vec3_cross (forward cam) (up cam))
                                (cam_x * width cam))
                      (vec3_mul (up cam) (cam_y * height cam))) = o)
      by (apply vec3_ext; unfold o, vec3_add; simpl; ring).
    rewrite Ho. f_equal. f_equal.
    apply vec3_ext; unfold vp, vec3_sub, vec3_add, vec3_mul; simpl; ring.
  - unfold camera_cast_ray, vec3_normalize, vec3_length, vec3_dot, vec3_sub,
      vec3_add, vec3_mul, vec3_cross; simpl.
    f_equal.
    + apply vec3_ext; simpl; ring.
    + match goal with |- context [sqrt ?e] => replace e with (f * f) by ring end.
      rewrite sqrt_square by lra.
      apply vec3_ext; simpl; field; lra.
Qed.

Lemma camera_cast_ray_spec_witness :
  0 < focal_distance_from_fov 10 80 /\
  camera_cast_ray
    (Camera (Vec3 0 0 0) (Vec3 0 1 0) (Vec3 0 0 1) 10 10
       (focal_distance_from_fov 10 80)) 0 0
  = Ray (Vec3 0 0 0) (Vec3 0 1 0).
Proof.
  split; [exact focal_distance_from_fov_main_pos|].
  apply (camera_cast_ray_spec
           (Camera (Vec3 0 0 0) (Vec3 0 1 0) (Vec3 0 0 1) 10 10
              (focal_distance_from_fov 10 80)) 0 0
           (focal_distance_from_fov 10 80)
           focal_distance_from_fov_main_pos).
Defined.

(** ** C5 *)

(** C5: [focal_distance_from_fov w theta] is [(w / 2) / tan (theta_rad / 2)]
    with [theta_rad = theta pi / 180] (the [int] division [360 / 2] is exact),
    for every [w] and [theta], in particular for [theta] in (0, 180). *)
Theorem focal_distance_from_fov_spec (w theta : R) :
  focal_distance_from_fov w theta = (w / 2) / tan ((theta * PI / 180) / 2).
Proof.
  unfold focal_distance_from_fov.
  replace (IZR (360 / 2)) with 180 by reflexivity.
  reflexivity.
Qed.

(** ** C6 *)

Lemma Int_part_of (v : R) (k : Z) :
  IZR k <= v -> v < IZR k + 1 -> Int_part v = k.
Proof.
  intros H1 H2. unfold Int_part.
  rewrite <- (tech_up v (k + 1)); [ring | |];
    rewrite plus_IZR; simpl; lra.
Qed.

Lemma Int_part_range (v : R) :
  0 <= v <= 255 -> (0 <= Int_part v <= 255)%Z.
Proof.
  intros Hv. destruct (base_Int_part v) as [H1 H2]. split.
  - assert (Hgt : (-1 < Int_part v)%Z) by (apply lt_IZR; lra). lia.
  - apply le_IZR. lra.
Qed.

(** C6: a channel is first clamped to [0, 1], then scaled by 255 and
    truncated to 8 bits; the result is always in [0, 255]; the channels
    [2.0], [-0.5] and [0.5] become 255, 0 and the mid-range 127. *)
Theorem translate_light_component_clamp_then_scale :
  (forall c : R,
     translate_light_component c = double_to_uint8 (Rmin (Rmax c 0) 1 * 255) /\
     (0 <= translate_light_component c <= 255)%Z) /\
  rgb_color_from_light (Vec3 2 (-0.5) 0.5) = Rgb 255 0 127.
Proof.
  assert (Hclamp : forall c, translate_light_component c
                             = double_to_uint8 (Rmin (Rmax c 0) 1 * 255)).
  { intros c. unfold translate_light_component, Rmax, Rmin.
    repeat match goal with
           | |- context [if ?d then _ else _] => destruct d
           | H : context [if ?d then _ else _] |- _ => destruct d
           end; try lra; do 2 f_equal; lra. }
  split.
  - intros c. split; [apply Hclamp|].
    rewrite Hclamp. unfold double_to_uint8.
    assert (Hr : 0 <= Rmin (Rmax c 0) 1 * 255 <= 255).
    { unfold Rmax, Rmin.
      destruct (Rle_dec c 0); destruct (Rle_dec _ 1); lra. }
    destruct (Rle_dec 0 _); [|lra].
    now apply Int_part_range.
  - unfold rgb_color_from_light; simpl.
    unfold translate_light_component, double_to_uint8.
    destruct (Rlt_dec 2 0); [lra|]. destruct (Rgt_dec 2 1); [|lra].
    destruct (Rlt_dec (-0.5) 0); [|lra]. destruct (Rgt_dec 0 1); [lra|].
    destruct (Rlt_dec 0.5 0); [lra|]. destruct (Rgt_dec 0.5 1); [lra|].
    destruct (Rle_dec 0 (1 * 255)); [|lra].
    destruct (Rle_dec 0 (0 * 255)); [|lra].
    destruct (Rle_dec 0 (0.5 * 255)); [|lra].
    f_equal; apply Int_part_of; simpl; lra.
Qed.

(** ** C7 *)

Lemma vec3_mul_0 (v : vec3) : vec3_mul v 0 = vec3_zero.
Proof. apply vec3_ext; unfold vec3_mul; simpl; ring. Qed.

(** C7: the diffuse term is [(light_color light_intensity) (.) surface_color]
    scaled by [max(0, - N . L_dir)] and by [k_d]; it is the zero vector when
    [N . L_dir >= 0]. *)
Theorem diffuse_contribution_spec (l : light) (mt : material)
  (bi : intersection) :
  diffuse_contribution l mt bi
  = vec3_mul
      (vec3_mul_vec (vec3_mul (light_color l) (light_intensity l))
         (surface_color mt))
      (Rmax 0 (- vec3_dot (normal bi) (light_direction l)) * diffuse_kn mt) /\
  (0 <= vec3_dot (normal bi) (light_direction l) ->
   diffuse_contribution l mt bi = vec3_zero).
Proof.
  unfold diffuse_contribution.
  destruct (Rlt_dec (- vec3_dot (normal bi) (light_direction l)) 0) as [H | H].
  - rewrite Rmax_left by lra. split; [reflexivity|].
    intros _. rewrite Rmult_0_l. apply vec3_mul_0.
  - rewrite Rmax_right by lra. split; [reflexivity|].
    intros Hn. replace (- vec3_dot (normal bi) (light_direction l)) with 0 by lra.
    rewrite Rmult_0_l. apply vec3_mul_0.
Qed.

(** ** C8 *)

(** C8: with the exponent [spec_n > 0] of [main] ([10]), the specular term is
    [light_color (max(0, - R . D))^n k_s] with [R] the reflection of [L_dir]
    about the normal, and the zero vector when [- R . D <= 0]; the pixel's
    light-space color is the unclamped sum [ambient + diffuse + specular]
    with [ambient = surface_color ambient_intensity]. *)
Theorem pix_color_spec (l : light) (mt : material) (bi : intersection)
  (view_dir : vec3) :
  (0 < spec_n mt)%nat ->
  let rd := vec3_reflect (light_direction l) (normal bi) in
  let align := - vec3_dot rd view_dir in
  specular_contribution l mt bi view_dir
  = vec3_mul (light_color l) (Rmax 0 align ^ spec_n mt * spec_ks mt) /\
  (align <= 0 -> specular_contribution l mt bi view_dir = vec3_zero) /\
  pix_color l mt bi view_dir
  = vec3_add (vec3_add (vec3_mul (surface_color mt) (ambient_intensity mt))
                (diffuse_contribution l mt bi))
      (specular_contribution l mt bi view_dir).
Proof.
  intros Hn rd align.
  assert (Hz : 0 ^ spec_n mt * spec_ks mt = 0)
    by (rewrite pow_i by exact Hn; ring).
  split; [|split].
  - unfold specular_contribution. fold rd. fold align.
    destruct (Rlt_dec align 0) as [H | H].
    + rewrite Rmax_left by lra. rewrite Hz. symmetry; apply vec3_mul_0.
    + rewrite Rmax_right by lra. reflexivity.
  - intros Ha. unfold specular_contribution. fold rd. fold align.
    destruct (Rlt_dec align 0) as [H | H]; [reflexivity|].
    replace align with 0 by lra. rewrite Hz. apply vec3_mul_0.
  - apply vec3_ext; unfold pix_color, ambient_contribution, vec3_add, vec3_zero;
      simpl; ring.
Qed.

Lemma pix_color_spec_witness :
  (0 < spec_n main_material)%nat /\
  (let bi := Intersection (Vec3 0 6 0) (Vec3 0 (-1) 0) in
   let rd := vec3_reflect (light_direction main_light) (normal bi) in
   let align := - vec3_dot rd (Vec3 0 1 0) in
   specular_contribution main_light main_material bi (Vec3 0 1 0)
   = vec3_mul (light_color main_light)
       (Rmax 0 align ^ spec_n main_material * spec_ks main_material)).
Proof.
  split; [simpl; lia|].
  apply (pix_color_spec main_light main_material
           (Intersection (Vec3 0 6 0) (Vec3 0 (-1) 0)) (Vec3 0 1 0)).
  simpl; lia.
Defined.

(** ** C9 *)

Lemma render_pixel_elsewhere (cam : camera) (spheres : list sphere)
  (l : light) (mt : material) (img_w img_h : nat) (img : rgb_image)
  (px py qx qy : nat) :
  (qx, qy) <> (px, py) ->
  render_pixel cam spheres l mt img_w img_h img px py qx qy = img qx qy.
Proof.
  intros Hne. unfold render_pixel.
  destruct (nearest _ spheres) as [[t|] [bi|]]; try reflexivity.
  unfold rgb_image_set.
  destruct (Nat.eqb_spec qx px) as [-> | Hx]; [|reflexivity].
  destruct (Nat.eqb_spec qy py) as [-> | Hy]; [congruence | reflexivity].
Qed.

Lemma render_row_keeps_missed (cam : camera) (spheres : list sphere)
  (l : light) (mt : material) (img_w img_h qx qy py : nat) :
  fst (nearest (pixel_ray cam img_w img_h qx qy) spheres) = Infinity ->
  forall (xs : list nat) (img : rgb_image),
  fold_left (fun im px => render_pixel cam spheres l mt img_w img_h im px py)
    xs img qx qy = img qx qy.
Proof.
  intros Hmiss xs. induction xs as [|px xs IH]; intros img; simpl; [reflexivity|].
  rewrite IH.
  destruct (Nat.eq_dec px qx) as [-> | Hx];
    [destruct (Nat.eq_dec py qy) as [-> | Hy] |].
  - unfold render_pixel.
    destruct (nearest (pixel_ray cam img_w img_h qx qy) spheres) as [d bi].
    simpl in Hmiss. now subst d.
  - apply render_pixel_elsewhere. congruence.
  - apply render_pixel_elsewhere. congruence.
Qed.

(** C9: when the ray of pixel [(px, py)] hits no sphere, the iteration of
    that pixel leaves the whole buffer unchanged (no write, whatever the
    shading parameters), and after the whole render from a buffer cleared to
    [bg] the pixel still holds [bg]. *)
Theorem render_missed_pixel_keeps_background (cam : camera)
  (spheres : list sphere) (l : light) (mt : material) (img_w img_h : nat)
  (bg : rgb_pixel) (img : rgb_image) (px py : nat) :
  fst (nearest (pixel_ray cam img_w img_h px py) spheres) = Infinity ->
  render_pixel cam spheres l mt img_w img_h img px py = img /\
  render cam spheres l mt img_w img_h (rgb_image_clear bg) px py = bg.
Proof.
  intros Hmiss. split.
  - unfold render_pixel.
    destruct (nearest (pixel_ray cam img_w img_h px py) spheres) as [d bi].
    simpl in Hmiss. now subst d.
  - unfold render.
    assert (Hrows : forall (ys : list nat) (im : rgb_image),
              fold_left
                (fun im py' =>
                   fold_left
                     (fun im' px' => render_pixel cam spheres l mt img_w img_h im' px' py')
                     (seq 0 img_w) im) ys im px py = im px py).
    { induction ys as [|py' ys IH]; intros im; simpl; [reflexivity|].
      rewrite IH. now apply render_row_keeps_missed. }
    rewrite Hrows. reflexivity.
Qed.

Lemma back_camera_center_ray :
  pixel_ray back_camera 2 2 1 1 = Ray (Vec3 0 0 0) (Vec3 0 (-1) 0).
Proof.
  unfold pixel_ray.
  replace (INR 1 / INR 2 - 0.5) with 0 by (simpl; lra).
  unfold camera_cast_ray, back_camera, vec3_normalize, vec3_length, vec3_dot,
    vec3_sub, vec3_add, vec3_mul, vec3_cross; simpl.
  f_equal.
  - apply vec3_ext; simpl; ring.
  - match goal with |- context [sqrt ?e] => replace e with (1 * 1) by ring end.
    rewrite sqrt_square by lra.
    apply vec3_ext; simpl; field.
Qed.

Lemma back_camera_center_miss :
  fst (nearest (pixel_ray back_camera 2 2 1 1) [ex_sphere]) = Infinity.
Proof.
  rewrite back_camera_center_ray.
  unfold nearest; simpl. unfold keep_nearer, sphere_ray_intersect.
  assert (Hp : sri_projection (Ray (Vec3 0 0 0) (Vec3 0 (-1) 0)) ex_sphere = -10)
    by (unfold sri_projection, sri_hypothenuse, vec3_dot, vec3_sub; simpl; ring).
  rewrite Hp. destruct (Rlt_dec (-10) 0); [reflexivity | lra].
Qed.

Lemma render_missed_pixel_keeps_background_witness :
  fst (nearest (pixel_ray back_camera 2 2 1 1) [ex_sphere]) = Infinity /\
  render_pixel back_camera [ex_sphere] main_light main_material 2 2
    (rgb_image_clear (Rgb 0 0 0)) 1 1 = rgb_image_clear (Rgb 0 0 0) /\
  render back_camera [ex_sphere] main_light main_material 2 2
    (rgb_image_clear (Rgb 0 0 0)) 1%nat 1%nat = Rgb 0 0 0.
Proof.
  split; [exact back_camera_center_miss|].
  exact (render_missed_pixel_keeps_background back_camera [ex_sphere]
           main_light main_material 2 2 (Rgb 0 0 0)
           (rgb_image_clear (Rgb 0 0 0)) 1 1 back_camera_center_miss).
Defined.

(** * Further properties of [rt.c] *)

(** ** Camera geometry *)

Lemma vec3_normalize_dot (v w : vec3) :
  0 < vec3_dot v v ->
  vec3_dot (vec3_normalize v) w = vec3_dot v w / sqrt (vec3_dot v v).
Proof.
  intros Hv. pose proof (sqrt_lt_R0 _ Hv).
  unfold vec3_normalize, vec3_length, vec3_dot in *; simpl. field. lra.
Qed.

Lemma vec3_normalize_unit (v : vec3) :
  0 < vec3_dot v v -> vec3_dot (vec3_normalize v) (vec3_normalize v) = 1.
Proof.
  intros Hv.
  assert (Hl : 0 < sqrt (vec3_dot v v)) by (apply sqrt_lt_R0; exact Hv).
  pose proof (sqrt_sqrt (vec3_dot v v) (Rlt_le _ _ Hv)) as Hs.
  unfold vec3_normalize, vec3_length. simpl.
  set (l := sqrt (vec3_dot v v)) in *.
  replace (vec3_dot (Vec3 (x v / l) (y v / l) (z v / l))
             (Vec3 (x v / l) (y v / l) (z v / l)))
    with (vec3_dot v v / (l * l)) by (unfold vec3_dot; simpl; field; lra).
  rewrite Hs. field. lra.
Qed.

(** The vector from the vantage point to the ray origin has component
    [focal_distance] along an orthonormal [forward]. *)
Lemma camera_cast_ray_offset_forward (cam : camera) (cam_x cam_y : R) :
  vec3_dot (forward cam) (forward cam) = 1 ->
  vec3_dot (up cam) (forward cam) = 0 ->
  let src := vec3_add (cam_center cam)
               (vec3_add (vec3_mul (vec3_cross (forward cam) (up cam))
                            (cam_x * width cam))
                  (vec3_mul (up cam) (cam_y * height cam))) in
  let vp := vec3_add (vec3_mul (forward cam) (- focal_distance cam))
              (cam_center cam) in
  vec3_dot (vec3_sub src vp) (forward cam) = focal_distance cam.
Proof.
  intros HF HU src vp.
  assert (E : vec3_dot (vec3_sub src vp) (forward cam)
              = cam_y * height cam * vec3_dot (up cam) (forward cam)
                + focal_distance cam * vec3_dot (forward cam) (forward cam))
    by (unfold src, vp, vec3_dot, vec3_sub, vec3_add, vec3_mul, vec3_cross;
        simpl; ring).
  rewrite E, HF, HU. ring.
Qed.

(** X1: for a camera whose [forward] is a unit vector orthogonal to [up] and
    whose focal distance is positive, every cast ray has a unit direction
    that points forward ([direction . forward > 0]). *)
Theorem camera_cast_ray_unit_forward (cam : camera) (cam_x cam_y : R) :
  vec3_dot (forward cam) (forward cam) = 1 ->
  vec3_dot (up cam) (forward cam) = 0 ->
  0 < focal_distance cam ->
  let d := direction (camera_cast_ray cam cam_x cam_y) in
  vec3_dot d d = 1 /\ 0 < vec3_dot d (forward cam).
Proof.
  intros HF HU Hf d.
  pose proof (camera_cast_ray_offset_forward cam cam_x cam_y HF HU) as Hoff.
  cbv zeta in Hoff.
  unfold d, camera_cast_ray; cbv zeta; simpl direction.
  match goal with |- context [vec3_normalize ?v] => set (D := v) end.
  fold D in Hoff.
  pose proof (vec3_dot_unit_bound D (forward cam) HF) as Hcs.
  assert (HD : 0 < vec3_dot D D) by (rewrite Hoff in Hcs; nra).
  split.
  - now apply vec3_normalize_unit.
  - rewrite vec3_normalize_dot by exact HD. rewrite Hoff.
    apply Rdiv_lt_0_compat; [exact Hf | apply sqrt_lt_R0, HD].
Qed.

Lemma main_camera_orthonormal :
  vec3_dot (forward main_camera) (forward main_camera) = 1 /\
  vec3_dot (up main_camera) (forward main_camera) = 0 /\
  0 < focal_distance main_camera.
Proof.
  split; [unfold vec3_dot; simpl; ring|].
  split; [unfold vec3_dot; simpl; ring|].
  exact focal_distance_from_fov_main_pos.
Qed.

Lemma camera_cast_ray_unit_forward_witness :
  let d := direction (camera_cast_ray main_camera 0.25 (-0.5)) in
  vec3_dot d d = 1 /\ 0 < vec3_dot d (forward main_camera).
Proof.
  destruct main_camera_orthonormal as (H1 & H2 & H3).
  exact (camera_cast_ray_unit_forward main_camera 0.25 (-0.5) H1 H2 H3).
Defined.

(** X2: when [up] is orthogonal to [forward], every ray origin lies in the
    image plane: the plane through the camera center orthogonal to
    [forward]. *)
Theorem camera_cast_ray_source_in_plane (cam : camera) (cam_x cam_y : R) :
  vec3_dot (up cam) (forward cam) = 0 ->
  vec3_dot (vec3_sub (source (camera_cast_ray cam cam_x cam_y)) (cam_center cam))
    (forward cam) = 0.
Proof.
  intros HU.
  assert (E : vec3_dot (vec3_sub (source (camera_cast_ray cam cam_x cam_y))
                          (cam_center cam)) (forward cam)
              = cam_y * height cam * vec3_dot (up cam) (forward cam))
    by (unfold camera_cast_ray, vec3_dot, vec3_sub, vec3_add, vec3_mul, vec3_cross;
        simpl; ring).
  rewrite E, HU. ring.
Qed.

Lemma camera_cast_ray_source_in_plane_witness :
  vec3_dot (vec3_sub (source (camera_cast_ray main_camera 0.25 (-0.5)))
              (cam_center main_camera)) (forward main_camera) = 0.
Proof.
  destruct main_camera_orthonormal as (_ & H2 & _).
  exact (camera_cast_ray_source_in_plane main_camera 0.25 (-0.5) H2).
Defined.

(** ** Intersection geometry *)

Lemma sphere_ray_intersect_finite_on_sphere (ry : ray) (s : sphere) (t : R)
  (i : option intersection) :
  vec3_dot (direction ry) (direction ry) = 1 ->
  sphere_ray_intersect ry s = (Finite t, i) -> on_sphere_at ry s t.
Proof.
  intros Hd Hi.
  destruct (sphere_ray_intersect_finite_inv ry s t i Hi) as (_ & Hdr & Ht).
  apply (sri_roots ry s t Hd Hdr).
  destruct (Rlt_dec _ 0); subst t; ring.
Qed.

(** X3: for a unit-direction ray and a sphere of positive radius, a hit
    writes the point [source + direction t] and the normal
    [(point - center) / radius], which is a unit vector pointing out of the
    sphere. *)
Theorem sphere_ray_intersect_hit_normal (ry : ray) (s : sphere) (t : R)
  (bi : intersection) :
  vec3_dot (direction ry) (direction ry) = 1 ->
  0 < radius s ->
  sphere_ray_intersect ry s = (Finite t, Some bi) ->
  point bi = vec3_add (source ry) (vec3_mul (direction ry) t) /\
  normal bi = vec3_mul (vec3_sub (point bi) (center s)) (/ radius s) /\
  vec3_dot (normal bi) (normal bi) = 1.
Proof.
  intros Hd Hr Hi.
  pose proof (sphere_ray_intersect_finite_on_sphere ry s t (Some bi) Hd Hi) as Hon.
  unfold on_sphere_at in Hon.
  unfold sphere_ray_intersect in Hi.
  destruct (Rlt_dec (sri_projection ry s) 0); [discriminate|].
  destruct (Rgt_dec (sri_d ry s) (radius s)); [discriminate|].
  injection Hi as Ht Hbi. subst bi. simpl. rewrite Ht.
  set (q := vec3_sub (vec3_add (source ry) (vec3_mul (direction ry) t)) (center s))
    in *.
  assert (Hq : 0 < vec3_dot q q) by (rewrite Hon; nra).
  split; [reflexivity|]. split.
  - unfold vec3_normalize, vec3_length. rewrite Hon, sqrt_square by lra.
    apply vec3_ext; unfold vec3_mul; simpl; field; lra.
  - now apply vec3_normalize_unit.
Qed.

Lemma sphere_ray_intersect_hit_normal_witness :
  let bi := Intersection (Vec3 0 6 0) (Vec3 0 (-1) 0) in
  point bi = vec3_add (source ex_ray) (vec3_mul (direction ex_ray) 6) /\
  normal bi = vec3_mul (vec3_sub (point bi) (center ex_sphere)) (/ radius ex_sphere) /\
  vec3_dot (normal bi) (normal bi) = 1.
Proof.
  apply (sphere_ray_intersect_hit_normal ex_ray ex_sphere 6).
  - unfold vec3_dot; simpl; ring.
  - simpl; lra.
  - exact ex_hit.
Defined.

(** X4: for a unit-direction ray whose origin lies strictly outside the
    sphere, a hit is at the near root [projection - m], which is strictly
    positive: the reported point is where the ray enters the sphere. *)
Theorem sphere_ray_intersect_outside_entry (ry : ray) (s : sphere) (t : R)
  (i : option intersection) :
  vec3_dot (direction ry) (direction ry) = 1 ->
  radius s * radius s
  < vec3_dot (sri_hypothenuse ry s) (sri_hypothenuse ry s) ->
  sphere_ray_intersect ry s = (Finite t, i) ->
  t = sri_projection ry s - sri_m ry s /\ 0 < t.
Proof.
  intros Hd Hout Hi.
  destruct (sphere_ray_intersect_finite_inv ry s t i Hi) as (Hp & Hdr & Ht).
  pose proof (sri_m_sq ry s Hdr) as Hm2.
  pose proof (sri_d_sq ry s Hd) as Hd2.
  pose proof (sri_m_nonneg ry s) as Hm.
  assert (Hlt : sri_m ry s < sri_projection ry s) by nra.
  destruct (Rlt_dec (sri_projection ry s - sri_m ry s) 0); [lra|].
  split; lra.
Qed.

Lemma sphere_ray_intersect_outside_entry_witness :
  6 = sri_projection ex_ray ex_sphere - sri_m ex_ray ex_sphere /\ 0 < 6.
Proof.
  apply (sphere_ray_intersect_outside_entry ex_ray ex_sphere 6
           (Some (Intersection (Vec3 0 6 0) (Vec3 0 (-1) 0)))).
  - unfold vec3_dot; simpl; ring.
  - unfold sri_hypothenuse, vec3_dot, vec3_sub; simpl; lra.
  - exact ex_hit.
Defined.

(** X5: moving the ray origin and the sphere center by the same offset does
    not change the returned distance, and moves the written point by that
    offset with the same normal. *)
Theorem sphere_ray_intersect_translate (ry : ray) (s : sphere) (v : vec3) :
  sphere_ray_intersect (translate_ray ry v) (translate_sphere s v)
  = match sphere_ray_intersect ry s with
    | (d, Some bi) => (d, Some (Intersection (vec3_add (point bi) v) (normal bi)))
    | res => res
    end.
Proof.
  assert (Hh : sri_hypothenuse (translate_ray ry v) (translate_sphere s v)
               = sri_hypothenuse ry s)
    by (apply vec3_ext; unfold sri_hypothenuse, vec3_sub, vec3_add; simpl; ring).
  assert (Hp : sri_projection (translate_ray ry v) (translate_sphere s v)
               = sri_projection ry s)
    by (unfold sri_projection; rewrite Hh; reflexivity).
  assert (Hd : sri_d (translate_ray ry v) (translate_sphere s v) = sri_d ry s)
    by (unfold sri_d; rewrite Hh, Hp; reflexivity).
  assert (Hm : sri_m (translate_ray ry v) (translate_sphere s v) = sri_m ry s)
    by (unfold sri_m; rewrite Hd; reflexivity).
  unfold sphere_ray_intersect. rewrite Hp, Hd, Hm. simpl radius.
  destruct (Rlt_dec (sri_projection ry s) 0); [reflexivity|].
  destruct (Rgt_dec (sri_d ry s) (radius s)); [reflexivity|].
  simpl. do 3 f_equal.
  - apply vec3_ext; unfold vec3_add, vec3_mul; simpl; ring.
  - f_equal. apply vec3_ext; unfold vec3_sub, vec3_add, vec3_mul; simpl; ring.
Qed.

(** ** Composition of the nearest-hit loop *)

Lemma dist_min_inf_l (a : dist) : dist_min Infinity a = a.
Proof. destruct a; reflexivity. Qed.

Lemma dist_min_assoc (a c e : dist) :
  dist_min a (dist_min c e) = dist_min (dist_min a c) e.
Proof.
  destruct a as [ta|], c as [tc|], e as [te|]; unfold dist_min, dist_ge;
    try destruct (Rge_dec tc ta); try destruct (Rge_dec te tc);
    try destruct (Rge_dec te ta); simpl; try reflexivity;
    repeat match goal with
           | |- context [Rge_dec ?u ?v] => destruct (Rge_dec u v); simpl
           end; try reflexivity; lra.
Qed.

Lemma keep_nearer_fst (acc c : dist * option intersection) :
  fst (keep_nearer acc c) = dist_min (fst acc) (fst c).
Proof. unfold keep_nearer, dist_min. destruct (dist_ge _ _); reflexivity. Qed.

Lemma fold_keep_nearer_fst (l : list (dist * option intersection))
  (acc : dist * option intersection) :
  fst (fold_left keep_nearer l acc)
  = dist_min (fst acc) (fst (fold_left keep_nearer l (Infinity, None))).
Proof.
  revert acc. induction l as [|c l IH]; intros acc; simpl.
  - destruct acc as [[t|] i]; unfold dist_min; simpl; [|reflexivity].
    reflexivity.
  - rewrite IH, (IH (keep_nearer (Infinity, None) c)), !keep_nearer_fst.
    simpl fst. rewrite dist_min_inf_l. apply eq_sym, dist_min_assoc.
Qed.

(** X6: the nearest distance over a concatenation of two sphere lists is the
    smaller of the nearest distances over each list (the first list's on a
    tie): the loop over the spheres can be split into consecutive parts. *)
Theorem nearest_app (ry : ray) (l1 l2 : list sphere) :
  fst (nearest ry (l1 ++ l2))
  = dist_min (fst (nearest ry l1)) (fst (nearest ry l2)).
Proof.
  rewrite !nearest_as_fold, map_app, fold_left_app.
  apply fold_keep_nearer_fst.
Qed.

(** ** Tone mapping *)

Lemma translate_light_component_clamp (c : R) :
  translate_light_component c = double_to_uint8 (Rmin (Rmax c 0) 1 * 255).
Proof.
  unfold translate_light_component, Rmax, Rmin.
  repeat match goal with
         | |- context [if ?d then _ else _] => destruct d
         | H : context [if ?d then _ else _] |- _ => destruct d
         end; try lra; do 2 f_equal; lra.
Qed.

Lemma Int_part_le (u v : R) : u <= v -> (Int_part u <= Int_part v)%Z.
Proof.
  intros Huv. destruct (base_Int_part u) as [Hu _].
  destruct (base_Int_part v) as [_ Hv].
  assert (Hlt : (Int_part u < Int_part v + 1)%Z)
    by (apply lt_IZR; rewrite plus_IZR; simpl; lra).
  lia.
Qed.

(** X7: the 8-bit conversion of a light channel is monotone: more light never
    gives a darker channel. *)
Theorem translate_light_component_monotone (c c' : R) :
  c <= c' -> (translate_light_component c <= translate_light_component c')%Z.
Proof.
  intros Hc. rewrite !translate_light_component_clamp.
  assert (Hrange : forall u, 0 <= Rmin (Rmax u 0) 1 * 255 <= 255)
    by (intros u; unfold Rmax, Rmin;
        destruct (Rle_dec u 0); destruct (Rle_dec _ 1); lra).
  assert (Hmono : Rmin (Rmax c 0) 1 <= Rmin (Rmax c' 0) 1)
    by (unfold Rmax, Rmin; repeat destruct (Rle_dec _ _); lra).
  unfold double_to_uint8.
  destruct (Rle_dec 0 (Rmin (Rmax c 0) 1 * 255)) as [H1 | H1];
    [|pose proof (Hrange c); lra].
  destruct (Rle_dec 0 (Rmin (Rmax c' 0) 1 * 255)) as [H2 | H2];
    [|pose proof (Hrange c'); lra].
  apply Int_part_le. lra.
Qed.

Lemma translate_light_component_monotone_witness :
  0.25 <= 0.75 /\
  (translate_light_component 0.25 <= translate_light_component 0.75)%Z.
Proof.
  split; [lra|]. apply translate_light_component_monotone. lra.
Defined.

(** X8: the conversion saturates: every channel at or above [1.0] becomes
    255 and every channel at or below [0] becomes 0. *)
Theorem translate_light_component_saturates (c : R) :
  (1 <= c -> translate_light_component c = 255%Z) /\
  (c <= 0 -> translate_light_component c = 0%Z).
Proof.
  rewrite translate_light_component_clamp. unfold double_to_uint8.
  split; intros Hc.
  - rewrite Rmax_left by lra. rewrite Rmin_right by lra.
    destruct (Rle_dec 0 (1 * 255)); [|lra].
    apply Int_part_of; simpl; lra.
  - rewrite Rmax_right by lra. rewrite Rmin_left by lra.
    destruct (Rle_dec 0 (0 * 255)); [|lra].
    apply Int_part_of; simpl; lra.
Qed.

(** X9: [normal_color] of a unit normal has every channel in [0, 255]. *)
Theorem normal_color_range (n : vec3) :
  vec3_dot n n = 1 ->
  (0 <= r (normal_color n) <= 255)%Z /\
  (0 <= g (normal_color n) <= 255)%Z /\
  (0 <= b (normal_color n) <= 255)%Z.
Proof.
  intros Hn. unfold vec3_dot in Hn.
  assert (Hc : forall u, -1 <= u <= 1 ->
                 (0 <= double_to_uint8 ((u + 1) / 2 * 255) <= 255)%Z).
  { intros u Hu. unfold double_to_uint8.
    destruct (Rle_dec 0 ((u + 1) / 2 * 255)); [|lra].
    apply Int_part_range; lra. }
  unfold normal_color; simpl.
  split; [|split]; apply Hc; split; nra.
Qed.

Lemma normal_color_range_witness :
  (0 <= r (normal_color (Vec3 0 (-1) 0)) <= 255)%Z /\
  (0 <= g (normal_color (Vec3 0 (-1) 0)) <= 255)%Z /\
  (0 <= b (normal_color (Vec3 0 (-1) 0)) <= 255)%Z.
Proof. apply normal_color_range. unfold vec3_dot; simpl; ring. Defined.

(** X10: [focal_distance_from_fov] is positive for a positive plane width and
    a field of view strictly between 0 and 180 degrees. *)
Theorem focal_distance_from_fov_pos (w fov_deg : R) :
  0 < w -> 0 < fov_deg < 180 -> 0 < focal_distance_from_fov w fov_deg.
Proof.
  intros Hw Hf. unfold focal_distance_from_fov.
  replace (IZR (360 / 2)) with 180 by reflexivity.
  pose proof PI_RGT_0.
  assert (0 < tan (fov_deg * PI / 180 / 2)).
  { apply tan_gt_0.
    - apply Rdiv_lt_0_compat; [|lra]. apply Rdiv_lt_0_compat; [nra | lra].
    - apply Rmult_lt_reg_r with (r := 360); [lra|].
      unfold Rdiv. field_simplify. nra. }
  apply Rdiv_lt_0_compat; lra.
Qed.

Lemma focal_distance_from_fov_pos_witness :
  0 < 10 /\ 0 < 80 < 180 /\ 0 < focal_distance_from_fov 10 80.
Proof.
  split; [lra|]. split; [lra|].
  apply focal_distance_from_fov_pos; lra.
Defined.

(** ** The pixel loop *)

Lemma render_row_elsewhere (cam : camera) (spheres : list sphere)
  (l : light) (mt : material) (img_w img_h qx qy py : nat) :
  forall (xs : list nat) (img : rgb_image),
  ~ In qx xs \/ qy <> py ->
  fold_left (fun im px => render_pixel cam spheres l mt img_w img_h im px py)
    xs img qx qy = img qx qy.
Proof.
  intros xs. induction xs as [|px xs IH]; intros img Hq; simpl; [reflexivity|].
  rewrite IH.
  - apply render_pixel_elsewhere.
    intros E; injection E as -> ->.
    destruct Hq as [Hq | Hq]; [apply Hq; left |]; reflexivity || congruence.
  - destruct Hq as [Hq | Hq]; [left | right]; [|exact Hq].
    intros Hin; apply Hq; right; exact Hin.
Qed.

Lemma render_rows_elsewhere (cam : camera) (spheres : list sphere)
  (l : light) (mt : material) (img_w img_h qx qy : nat) :
  forall (ys : list nat) (img : rgb_image),
  ~ In qx (seq 0 img_w) \/ ~ In qy ys ->
  fold_left
    (fun im py =>
       fold_left (fun im' px => render_pixel cam spheres l mt img_w img_h im' px py)
         (seq 0 img_w) im) ys img qx qy = img qx qy.
Proof.
  intros ys. induction ys as [|py ys IH]; intros img Hq; simpl; [reflexivity|].
  rewrite IH.
  - apply render_row_elsewhere.
    destruct Hq as [Hq | Hq]; [left; exact Hq | right].
    intros ->; apply Hq; left; reflexivity.
  - destruct Hq as [Hq | Hq]; [left; exact Hq | right].
    intros Hin; apply Hq; right; exact Hin.
Qed.

(** X11: the render loop never changes a buffer pixel outside the
    [img_w x img_h] raster. *)
Theorem render_outside_unchanged (cam : camera) (spheres : list sphere)
  (l : light) (mt : material) (img_w img_h : nat) (img : rgb_image)
  (qx qy : nat) :
  (img_w <= qx \/ img_h <= qy)%nat ->
  render cam spheres l mt img_w img_h img qx qy = img qx qy.
Proof.
  intros Hq. unfold render. apply render_rows_elsewhere.
  destruct Hq as [Hq | Hq]; [left | right]; rewrite in_seq; lia.
Qed.

Lemma render_outside_unchanged_witness :
  (2 <= 5 \/ 2 <= 0)%nat /\
  render main_camera [ex_sphere] main_light main_material 2 2
    (rgb_image_clear (Rgb 0 0 0)) 5%nat 0%nat = Rgb 0 0 0.
Proof.
  split; [lia|].
  exact (render_outside_unchanged main_camera [ex_sphere] main_light
           main_material 2 2 (rgb_image_clear (Rgb 0 0 0)) 5 0
           (or_introl (le_S _ _ (le_S _ _ (le_S _ _ (le_n 2)))))).
Defined.

Lemma render_pixel_hit_value (cam : camera) (spheres : list sphere)
  (l : light) (mt : material) (img_w img_h : nat) (img : rgb_image)
  (px py : nat) (t : R) (bi : intersection) :
  nearest (pixel_ray cam img_w img_h px py) spheres = (Finite t, Some bi) ->
  render_pixel cam spheres l mt img_w img_h img px py px py
  = rgb_color_from_light
      (pix_color l mt bi (direction (pixel_ray cam img_w img_h px py))).
Proof.
  intros H. unfold render_pixel. rewrite H.
  unfold rgb_image_set. now rewrite !Nat.eqb_refl.
Qed.

Lemma seq_split_at (n k : nat) :
  (k < n)%nat -> seq 0 n = seq 0 k ++ k :: seq (S k) (n - S k).
Proof.
  intros Hk. replace n with (k + S (n - S k))%nat at 1 by lia.
  rewrite seq_app. reflexivity.
Qed.

(** X12: when the ray of an in-raster pixel hits a sphere, after the whole
    render that pixel holds the 8-bit conversion of the shaded color of the
    nearest intersection, whatever the buffer held before: each pixel is
    written by its own iteration only. *)
Theorem render_hit_pixel_value (cam : camera) (spheres : list sphere)
  (l : light) (mt : material) (img_w img_h : nat) (img : rgb_image)
  (px py : nat) (t : R) (bi : intersection) :
  (px < img_w)%nat -> (py < img_h)%nat ->
  nearest (pixel_ray cam img_w img_h px py) spheres = (Finite t, Some bi) ->
  render cam spheres l mt img_w img_h img px py
  = rgb_color_from_light
      (pix_color l mt bi (direction (pixel_ray cam img_w img_h px py))).
Proof.
  intros Hx Hy Hhit. unfold render.
  rewrite (seq_split_at img_h py Hy), fold_left_app. cbn [fold_left].
  rewrite render_rows_elsewhere
    by (right; rewrite in_seq; lia).
  rewrite (seq_split_at img_w px Hx), fold_left_app. cbn [fold_left].
  rewrite render_row_elsewhere by (left; rewrite in_seq; lia).
  eapply render_pixel_hit_value. exact Hhit.
Qed.

(** ** Shading bounds *)

Lemma vec3_nonneg_add (u v : vec3) :
  vec3_nonneg u -> vec3_nonneg v -> vec3_nonneg (vec3_add u v).
Proof. unfold vec3_nonneg, vec3_add; simpl; intros; lra. Qed.

Lemma vec3_nonneg_mul (u : vec3) (k : R) :
  vec3_nonneg u -> 0 <= k -> vec3_nonneg (vec3_mul u k).
Proof.
  unfold vec3_nonneg, vec3_mul; simpl; intros (H1 & H2 & H3) Hk.
  repeat split; apply Rmult_le_pos; assumption.
Qed.

Lemma vec3_nonneg_mul_vec (u v : vec3) :
  vec3_nonneg u -> vec3_nonneg v -> vec3_nonneg (vec3_mul_vec u v).
Proof.
  unfold vec3_nonneg, vec3_mul_vec; simpl; intros (H1 & H2 & H3) (H4 & H5 & H6).
  repeat split; apply Rmult_le_pos; assumption.
Qed.

(** X13: with a non-negative light color and intensity, surface color and
    weights, every channel of the light-space pixel color is non-negative. *)
Theorem pix_color_nonneg (l : light) (mt : material) (bi : intersection)
  (view_dir : vec3) :
  vec3_nonneg (light_color l) -> 0 <= light_intensity l ->
  vec3_nonneg (surface_color mt) ->
  0 <= diffuse_kn mt -> 0 <= spec_ks mt -> 0 <= ambient_intensity mt ->
  vec3_nonneg (pix_color l mt bi view_dir).
Proof.
  intros Hl Hli Hs Hkd Hks Ha.
  unfold pix_color.
  apply vec3_nonneg_add; [apply vec3_nonneg_add; [apply vec3_nonneg_add|]|].
  - unfold vec3_nonneg, vec3_zero; simpl; lra.
  - apply vec3_nonneg_mul; assumption.
  - unfold diffuse_contribution. cbv zeta.
    apply vec3_nonneg_mul.
    + apply vec3_nonneg_mul_vec; [apply vec3_nonneg_mul|]; assumption.
    + destruct (Rlt_dec _ 0); apply Rmult_le_pos; lra.
  - unfold specular_contribution. cbv zeta.
    destruct (Rlt_dec _ 0) as [H | H].
    + unfold vec3_nonneg, vec3_zero; simpl; lra.
    + apply vec3_nonneg_mul; [assumption|].
      apply Rmult_le_pos; [apply pow_le; lra | exact Hks].
Qed.

Lemma pix_color_nonneg_witness :
  vec3_nonneg (pix_color main_light main_material
                 (Intersection (Vec3 0 6 0) (Vec3 0 (-1) 0)) (Vec3 0 1 0)).
Proof.
  apply pix_color_nonneg; unfold vec3_nonneg; simpl; lra.
Defined.

(** X14: for a unit normal and a unit light direction, with non-negative
    light and surface colors and weight, each channel of the diffuse term
    lies between 0 and [(light_color light_intensity) (.) surface_color k_d]:
    the cosine factor never exceeds 1. *)
Theorem diffuse_contribution_bounded (l : light) (mt : material)
  (bi : intersection) :
  vec3_dot (normal bi) (normal bi) = 1 ->
  vec3_dot (light_direction l) (light_direction l) = 1 ->
  vec3_nonneg (light_color l) -> 0 <= light_intensity l ->
  vec3_nonneg (surface_color mt) -> 0 <= diffuse_kn mt ->
  let base := vec3_mul_vec (vec3_mul (light_color l) (light_intensity l))
                (surface_color mt) in
  let dc := diffuse_contribution l mt bi in
  0 <= x dc <= x base * diffuse_kn mt /\
  0 <= y dc <= y base * diffuse_kn mt /\
  0 <= z dc <= z base * diffuse_kn mt.
Proof.
  intros HN HL Hl Hli Hs Hkd base dc.
  pose proof (vec3_dot_unit_bound (normal bi) (light_direction l) HL) as Hcs.
  rewrite HN in Hcs.
  assert (Hb : vec3_nonneg base)
    by (apply vec3_nonneg_mul_vec; [apply vec3_nonneg_mul|]; assumption).
  set (di := - vec3_dot (normal bi) (light_direction l)).
  assert (Hcos : 0 <= (if Rlt_dec di 0 then 0 else di) <= 1)
    by (destruct (Rlt_dec di 0); unfold di in *; nra).
  unfold dc, diffuse_contribution. cbv zeta. fold di. fold base.
  set (k := if Rlt_dec di 0 then 0 else di) in *.
  assert (Hk : forall P, 0 <= P -> 0 <= P * (k * diffuse_kn mt) <= P * diffuse_kn mt).
  { intros P HP. split.
    - apply Rmult_le_pos; [exact HP | apply Rmult_le_pos; lra].
    - replace (P * (k * diffuse_kn mt)) with (P * diffuse_kn mt * k) by ring.
      replace (P * diffuse_kn mt) with (P * diffuse_kn mt * 1) at 2 by ring.
      apply Rmult_le_compat_l; [apply Rmult_le_pos|]; lra. }
  destruct Hb as (Hbx & Hby & Hbz).
  unfold vec3_mul at 1; simpl.
  split; [|split]; apply Hk; assumption.
Qed.

Lemma diffuse_contribution_bounded_witness :
  let bi := Intersection (Vec3 0 6 0) (Vec3 0 (-1) 0) in
  let base := vec3_mul_vec (vec3_mul (light_color main_light)
                              (light_intensity main_light))
                (surface_color main_material) in
  let dc := diffuse_contribution main_light main_material bi in
  0 <= x dc <= x base * diffuse_kn main_material /\
  0 <= y dc <= y base * diffuse_kn main_material /\
  0 <= z dc <= z base * diffuse_kn main_material.
Proof.
  apply diffuse_contribution_bounded.
  - unfold vec3_dot; simpl; ring.
  - apply vec3_normalize_unit. unfold vec3_dot; simpl; lra.
  - unfold vec3_nonneg; simpl; lra.
  - simpl; lra.
  - unfold vec3_nonneg; simpl; lra.
  - simpl; lra.
Defined.

Lemma front_camera_center_ray : pixel_ray front_camera 2 2 1 1 = ex_ray.
Proof.
  unfold pixel_ray.
  replace (INR 1 / INR 2 - 0.5) with 0 by (simpl; lra).
  unfold camera_cast_ray, front_camera, ex_ray, vec3_normalize, vec3_length,
    vec3_dot, vec3_sub, vec3_add, vec3_mul, vec3_cross; simpl.
  f_equal.
  - apply vec3_ext; simpl; ring.
  - match goal with |- context [sqrt ?e] => replace e with (1 * 1) by ring end.
    rewrite sqrt_square by lra.
    apply vec3_ext; simpl; field.
Qed.

Lemma render_hit_pixel_value_witness :
  (1 < 2)%nat /\ (1 < 2)%nat /\
  nearest (pixel_ray front_camera 2 2 1 1) [ex_sphere]
  = (Finite 6, Some (Intersection (Vec3 0 6 0) (Vec3 0 (-1) 0))) /\
  render front_camera [ex_sphere] main_light main_material 2 2
    (rgb_image_clear (Rgb 0 0 0)) 1%nat 1%nat
  = rgb_color_from_light
      (pix_color main_light main_material
         (Intersection (Vec3 0 6 0) (Vec3 0 (-1) 0))
         (direction (pixel_ray front_camera 2 2 1 1))).
Proof.
  assert (Hn : nearest (pixel_ray front_camera 2 2 1 1) [ex_sphere]
               = (Finite 6, Some (Intersection (Vec3 0 6 0) (Vec3 0 (-1) 0)))).
  { rewrite front_camera_center_ray. unfold nearest. simpl.
    rewrite ex_hit. reflexivity. }
  split; [lia|]. split; [lia|]. split; [exact Hn|].
  exact (render_hit_pixel_value front_camera [ex_sphere] main_light
           main_material 2 2 (rgb_image_clear (Rgb 0 0 0)) 1 1 6
           (Intersection (Vec3 0 6 0) (Vec3 0 (-1) 0))
           (le_n 2) (le_n 2) Hn).
Defined.

(** X15: for a pixel inside the raster, [main] casts the ray at plane
    coordinates in [[-0.5, 0.5) x [-0.5, 0.5)], with pixel [(0, 0)] at the
    corner [(-0.5, -0.5)]. *)
Theorem pixel_ray_plane_coords (cam : camera) (img_w img_h px py : nat) :
  (px < img_w)%nat -> (py < img_h)%nat ->
  exists cam_x cam_y,
    -0.5 <= cam_x < 0.5 /\ -0.5 <= cam_y < 0.5 /\
    (px = 0%nat -> cam_x = -0.5) /\ (py = 0%nat -> cam_y = -0.5) /\
    pixel_ray cam img_w img_h px py = camera_cast_ray cam cam_x cam_y.
Proof.
  intros Hx Hy.
  assert (Hc : forall p n : nat, (p < n)%nat ->
             -0.5 <= INR p / INR n - 0.5 < 0.5 /\
             (p = 0%nat -> INR p / INR n - 0.5 = -0.5)).
  { intros p n Hp.
    assert (Hn : 0 < INR n) by (apply lt_0_INR; lia).
    assert (Hpn : INR p < INR n) by (apply lt_INR; exact Hp).
    pose proof (pos_INR p).
    split.
    - split.
      + assert (0 <= INR p / INR n) by (unfold Rdiv; apply Rmult_le_pos; [lra | apply Rlt_le, Rinv_0_lt_compat; lra]). lra.
      + assert (INR p / INR n < 1).
        { apply Rmult_lt_reg_r with (r := INR n); [exact Hn|].
          unfold Rdiv. rewrite Rmult_assoc, Rinv_l by lra. lra. }
        lra.
    - intros ->. simpl. unfold Rdiv. rewrite Rmult_0_l. lra. }
  destruct (Hc px img_w Hx) as [Hbx Hzx], (Hc py img_h Hy) as [Hby Hzy].
  exists (INR px / INR img_w - 0.5), (INR py / INR img_h - 0.5).
  repeat split; try apply Hbx; try apply Hby; auto.
Qed.

Lemma pixel_ray_plane_coords_witness :
  (1 < 2)%nat /\ (0 < 2)%nat /\
  exists cam_x cam_y,
    -0.5 <= cam_x < 0.5 /\ -0.5 <= cam_y < 0.5 /\
    (1%nat = 0%nat -> cam_x = -0.5) /\ (0%nat = 0%nat -> cam_y = -0.5) /\
    pixel_ray main_camera 2 2 1 0 = camera_cast_ray main_camera cam_x cam_y.
Proof.
  split; [lia|]. split; [lia|].
  apply pixel_ray_plane_coords; lia.
Defined.
